(** * The table-state hook of the InvenTree front end

    A shallow embedding of [src/frontend/src/hooks/UseTable.tsx]: the hook
    [useTable], which holds the interaction state of one data table
    (refresh key, persisted filters and hidden columns, selection, row
    expansion, pagination and the record cache with its [updateRecord]
    operation), and the properties its specification states about it. *)

From Stdlib Require Import ZArith Ascii String.
From stdpp Require Import gmap strings list fin_maps pretty.

Set Warnings "-register-all".
Local Open Scope Z_scope.

(** ** Errors

    The hook never throws by itself; the only exception its code can raise is
    the [TypeError] of a property access on [undefined] or [null]. *)

Inductive result (A : Type) : Type :=
  | Ok (a : A)
  | TypeError.
Arguments Ok {A} a.
Arguments TypeError {A}.

#[export] Instance result_bind : MBind result := λ A B k r,
  match r with
  | Ok a => k a
  | TypeError => TypeError
  end.

#[export] Instance result_ret : MRet result := λ A a, Ok a.

(** ** JavaScript values and the built-ins the hook calls *)

Module JS.

(** The values a record ([any]) or one of its fields can be.  Numbers are
    integers, which is what primary keys and counters are.  An object is a
    reference (its address) together with its own properties. *)
Inductive any : Type :=
  | Undefined
  | Null
  | Bool (b : bool)
  | Num (z : Z)
  | Str (s : string)
  | Obj (addr : nat) (props : gmap string any).

(** What [===] looks at: a primitive's value, an object's reference. *)
Inductive ident : Type :=
  | IUndefined
  | INull
  | IBool (b : bool)
  | INum (z : Z)
  | IStr (s : string)
  | IRef (addr : nat).

#[export] Instance ident_eq_dec : EqDecision ident.
Proof. solve_decision. Defined.

Definition identity (v : any) : ident :=
  match v with
  | Undefined => IUndefined
  | Null => INull
  | Bool b => IBool b
  | Num z => INum z
  | Str s => IStr s
  | Obj addr _ => IRef addr
  end.

(** [x === y] *)
Definition strict_equals (x y : any) : bool :=
  match x, y with
  | Undefined, Undefined => true
  | Null, Null => true
  | Bool a, Bool b => Bool.eqb a b
  | Num a, Num b => Z.eqb a b
  | Str a, Str b => String.eqb a b
  | Obj a _, Obj b _ => Nat.eqb a b
  | _, _ => false
  end.

(** SameValueZero, the comparison of [Array.prototype.includes].  It differs
    from [===] at NaN only, which integer numbers do not have. *)
Definition same_value_zero (x y : any) : bool := strict_equals x y.

Definition is_object (v : any) : bool :=
  match v with
  | Obj _ _ => true
  | _ => false
  end.

Definition nullish (v : any) : bool :=
  match v with
  | Undefined | Null => true
  | _ => false
  end.

(** [v.k]: a [TypeError] on [undefined] and [null], [undefined] for a
    property the value does not have. *)
Definition get (v : any) (k : string) : result any :=
  match v with
  | Undefined | Null => TypeError
  | Obj _ props => Ok (default Undefined (props !! k))
  | Bool _ | Num _ | Str _ => Ok Undefined
  end.

(** [a ?? b]: [b] is evaluated only when [a] is [undefined] or [null]. *)
Definition coalesce (a : any) (b : result any) : result any :=
  if nullish a then b else Ok a.

(** [l.findIndex(p)]: the index of the first element satisfying [p], [-1]
    when there is none; the callback is not called past the first match. *)
Fixpoint findIndex_from {A : Type} (p : A → result bool) (l : list A) (i : Z)
    : result Z :=
  match l with
  | [] => Ok (-1)
  | x :: l' =>
      b ← p x;
      if (b : bool) then Ok i else findIndex_from p l' (i + 1)
  end.

Definition findIndex {A : Type} (p : A → result bool) (l : list A) : result Z :=
  findIndex_from p l 0.

(** [l.includes(x)] *)
Definition includes (l : list any) (x : any) : bool :=
  existsb (λ e, same_value_zero e x) l.

(** [l.map(f)] with a callback that may throw. *)
Fixpoint map {A B : Type} (f : A → result B) (l : list A) : result (list B) :=
  match l with
  | [] => Ok []
  | x :: l' =>
      y ← f x;
      ys ← map f l';
      Ok (y :: ys)
  end.

(** [l[index] = v] for [index >= 0]: in range the slot is overwritten, past
    the end the array grows and the holes in between read as [undefined]. *)
Definition assign (l : list any) (index : Z) (v : any) : list any :=
  let i := Z.to_nat index in
  if decide (i < length l)%nat then <[i := v]> l
  else l ++ replicate (i - length l) Undefined ++ [v].

(** [l.push(v)] *)
Definition push {A : Type} (l : list A) (v : A) : list A := l ++ [v].

(** [s.replaceAll(c, r)] for a one-character pattern [c]. *)
Fixpoint replaceAll (c : ascii) (r : string) (s : string) : string :=
  match s with
  | EmptyString => EmptyString
  | String a s' =>
      if Ascii.eqb a c then r +:+ replaceAll c r s'
      else String a (replaceAll c r s')
  end.

End JS.

Import JS.

Local Open Scope string_scope.
Local Open Scope list_scope.

(** ** The browser: persisted storage and random identifiers *)

(** The text kept under a [localStorage] key, as the JSON tree it denotes. *)
Inductive json : Type :=
  | JsonStr (s : string)
  | JsonArr (items : list json)
  | JsonObj (fields : list (string * json)).

(** The types [useLocalStorage<T>] is used at: a value is written with
    [JSON.stringify] and read back with [JSON.parse]. *)
Class Serializable (A : Type) : Type := {
  serialize : A → json;
  deserialize : json → option A;
  deserialize_serialize : ∀ a, deserialize (serialize a) = Some a
}.

#[export, refine] Instance string_serializable : Serializable string := {|
  serialize := JsonStr;
  deserialize j := match j with JsonStr s => Some s | _ => None end
|}.
Proof. done. Defined.

#[export, refine] Instance list_serializable `{Serializable A}
    : Serializable (list A) := {|
  serialize l := JsonArr (serialize <$> l);
  deserialize j :=
    match j with
    | JsonArr items => mapM deserialize items
    | _ => None
    end
|}.
Proof.
  intros l. apply mapM_Some. induction l as [|a l IH]; simpl.
  - constructor.
  - constructor; [apply deserialize_serialize | exact IH].
Defined.

(** Modelled from the spec: the type [TableFilter] is declared in
    [tables/Filter], outside the file of the hook; the specification
    describes a filter as a [{name, value}] pair. *)
Record TableFilter : Type := {
  name : string;
  value : string
}.

#[export, refine] Instance filter_serializable : Serializable TableFilter := {|
  serialize f := JsonObj [("name", JsonStr (name f)); ("value", JsonStr (value f))];
  deserialize j :=
    match j with
    | JsonObj [(k1, JsonStr n); (k2, JsonStr v)] =>
        if decide (k1 = "name" ∧ k2 = "value")
        then Some {| name := n; value := v |} else None
    | _ => None
    end
|}.
Proof. by intros [n v]. Defined.

(** What the hook reaches outside itself: the browser's [localStorage] and
    the identifiers [randomId()] hands out, the n-th call returning
    [randomIds n]. *)
Record Browser : Type := {
  localStorage : gmap string json;
  randomIds : nat → string;
  randomCalls : nat
}.

(** [randomId()] of [@mantine/hooks]. *)
Definition randomId (b : Browser) : string * Browser :=
  (randomIds b (randomCalls b),
   {| localStorage := localStorage b;
      randomIds := randomIds b;
      randomCalls := S (randomCalls b) |}).

(** Modelled from the spec: [useLocalStorage] of [@mantine/hooks] is
    get-or-default on read and set-triggers-persist on write.  A stored text
    that is not a [T] cannot be produced by the hook itself and reads as the
    default here. *)
Definition readStorageValue `{Serializable A} (key : string) (defaultValue : A)
    (storage : gmap string json) : A :=
  match storage !! key with
  | Some j => default defaultValue (deserialize j)
  | None => defaultValue
  end.

Definition writeStorageValue `{Serializable A} (key : string) (v : A)
    (b : Browser) : Browser :=
  {| localStorage := <[key := serialize v]> (localStorage b);
     randomIds := randomIds b;
     randomCalls := randomCalls b |}.

(** The value [useLocalStorage] returns on the first render: the stored one
    only when [getInitialValueInEffect] is false; otherwise the default, and
    the stored value is fetched by the effect that follows the first render. *)
Definition useLocalStorage_initial `{Serializable A} (getInitialValueInEffect : bool)
    (key : string) (defaultValue : A) (b : Browser) : A :=
  if getInitialValueInEffect then defaultValue
  else readStorageValue key defaultValue (localStorage b).

Definition useLocalStorage_effect `{Serializable A} (getInitialValueInEffect : bool)
    (key : string) (defaultValue : A) (b : Browser) (current : A) : A :=
  if getInitialValueInEffect
  then readStorageValue key defaultValue (localStorage b)
  else current.

(** ** The state of one mounted table

    One field per [useState] or [useLocalStorage] cell of [useTable], in the
    order the hook declares them.  The two derived entries of the returned
    object, [selectedIds] and [hasSelectedRecords], are functions of it. *)
Record TableState : Type := {
  tableKey : string;
  activeFilters : list TableFilter;
  expandedRecords : list any;
  selectedRecords : list any;
  recordCount : Z;
  page : Z;
  pageSize : Z;
  hiddenColumns : list string;
  searchTerm : string;
  records : list any;
  isLoading : bool;
  editable : bool
}.

(** The setters: each replaces the content of its own cell.  [putActiveFilters]
    and [putHiddenColumns] are the state half of the two [useLocalStorage]
    setters, whose other half writes the browser's storage. *)
Definition setTableKey (v : string) (st : TableState) : TableState :=
  {| tableKey := v;
     activeFilters := activeFilters st;
     expandedRecords := expandedRecords st;
     selectedRecords := selectedRecords st;
     recordCount := recordCount st;
     page := page st;
     pageSize := pageSize st;
     hiddenColumns := hiddenColumns st;
     searchTerm := searchTerm st;
     records := records st;
     isLoading := isLoading st;
     editable := editable st |}.

Definition putActiveFilters (v : list TableFilter) (st : TableState) : TableState :=
  {| tableKey := tableKey st;
     activeFilters := v;
     expandedRecords := expandedRecords st;
     selectedRecords := selectedRecords st;
     recordCount := recordCount st;
     page := page st;
     pageSize := pageSize st;
     hiddenColumns := hiddenColumns st;
     searchTerm := searchTerm st;
     records := records st;
     isLoading := isLoading st;
     editable := editable st |}.

Definition setExpandedRecords (v : list any) (st : TableState) : TableState :=
  {| tableKey := tableKey st;
     activeFilters := activeFilters st;
     expandedRecords := v;
     selectedRecords := selectedRecords st;
     recordCount := recordCount st;
     page := page st;
     pageSize := pageSize st;
     hiddenColumns := hiddenColumns st;
     searchTerm := searchTerm st;
     records := records st;
     isLoading := isLoading st;
     editable := editable st |}.

Definition setSelectedRecords (v : list any) (st : TableState) : TableState :=
  {| tableKey := tableKey st;
     activeFilters := activeFilters st;
     expandedRecords := expandedRecords st;
     selectedRecords := v;
     recordCount := recordCount st;
     page := page st;
     pageSize := pageSize st;
     hiddenColumns := hiddenColumns st;
     searchTerm := searchTerm st;
     records := records st;
     isLoading := isLoading st;
     editable := editable st |}.

Definition setRecordCount (v : Z) (st : TableState) : TableState :=
  {| tableKey := tableKey st;
     activeFilters := activeFilters st;
     expandedRecords := expandedRecords st;
     selectedRecords := selectedRecords st;
     recordCount := v;
     page := page st;
     pageSize := pageSize st;
     hiddenColumns := hiddenColumns st;
     searchTerm := searchTerm st;
     records := records st;
     isLoading := isLoading st;
     editable := editable st |}.

Definition setPage (v : Z) (st : TableState) : TableState :=
  {| tableKey := tableKey st;
     activeFilters := activeFilters st;
     expandedRecords := expandedRecords st;
     selectedRecords := selectedRecords st;
     recordCount := recordCount st;
     page := v;
     pageSize := pageSize st;
     hiddenColumns := hiddenColumns st;
     searchTerm := searchTerm st;
     records := records st;
     isLoading := isLoading st;
     editable := editable st |}.

Definition setPageSize (v : Z) (st : TableState) : TableState :=
  {| tableKey := tableKey st;
     activeFilters := activeFilters st;
     expandedRecords := expandedRecords st;
     selectedRecords := selectedRecords st;
     recordCount := recordCount st;
     page := page st;
     pageSize := v;
     hiddenColumns := hiddenColumns st;
     searchTerm := searchTerm st;
     records := records st;
     isLoading := isLoading st;
     editable := editable st |}.

Definition putHiddenColumns (v : list string) (st : TableState) : TableState :=
  {| tableKey := tableKey st;
     activeFilters := activeFilters st;
     expandedRecords := expandedRecords st;
     selectedRecords := selectedRecords st;
     recordCount := recordCount st;
     page := page st;
     pageSize := pageSize st;
     hiddenColumns := v;
     searchTerm := searchTerm st;
     records := records st;
     isLoading := isLoading st;
     editable := editable st |}.

Definition setSearchTerm (v : string) (st : TableState) : TableState :=
  {| tableKey := tableKey st;
     activeFilters := activeFilters st;
     expandedRecords := expandedRecords st;
     selectedRecords := selectedRecords st;
     recordCount := recordCount st;
     page := page st;
     pageSize := pageSize st;
     hiddenColumns := hiddenColumns st;
     searchTerm := v;
     records := records st;
     isLoading := isLoading st;
     editable := editable st |}.

Definition setRecords (v : list any) (st : TableState) : TableState :=
  {| tableKey := tableKey st;
     activeFilters := activeFilters st;
     expandedRecords := expandedRecords st;
     selectedRecords := selectedRecords st;
     recordCount := recordCount st;
     page := page st;
     pageSize := pageSize st;
     hiddenColumns := hiddenColumns st;
     searchTerm := searchTerm st;
     records := v;
     isLoading := isLoading st;
     editable := editable st |}.

Definition setIsLoading (v : bool) (st : TableState) : TableState :=
  {| tableKey := tableKey st;
     activeFilters := activeFilters st;
     expandedRecords := expandedRecords st;
     selectedRecords := selectedRecords st;
     recordCount := recordCount st;
     page := page st;
     pageSize := pageSize st;
     hiddenColumns := hiddenColumns st;
     searchTerm := searchTerm st;
     records := records st;
     isLoading := v;
     editable := editable st |}.

Definition setEditable (v : bool) (st : TableState) : TableState :=
  {| tableKey := tableKey st;
     activeFilters := activeFilters st;
     expandedRecords := expandedRecords st;
     selectedRecords := selectedRecords st;
     recordCount := recordCount st;
     page := page st;
     pageSize := pageSize st;
     hiddenColumns := hiddenColumns st;
     searchTerm := searchTerm st;
     records := records st;
     isLoading := isLoading st;
     editable := v |}.

(** A mounted table together with the browser it runs in. *)
Record Machine : Type := {
  table : TableState;
  browser : Browser
}.

(** ** The hook *)

Section useTable.

(** The argument of [useTable]; every callback of the hook closes over it. *)
Variable tableName : string.

Definition activeFiltersKey : string :=
  "inventree-table-filters-" +:+ tableName.

Definition hiddenColumnsKey : string :=
  "inventree-hidden-table-columns-" +:+ tableName.

(** Function to generate a new ID (to refresh the table) *)
Definition generateTableName (b : Browser) : string * Browser :=
  let '(id, b') := randomId b in
  (replaceAll "-" "" tableName +:+ "-" +:+ id, b').

(** The first render of [useTable(tableName)]: every cell takes its initial
    value. *)
Definition useTable (b : Browser) : Machine :=
  let '(key, b') := generateTableName b in
  {| table :=
       {| tableKey := key;
          activeFilters := useLocalStorage_initial false activeFiltersKey [] b;
          expandedRecords := [];
          selectedRecords := [];
          recordCount := 0;
          page := 1;
          pageSize := 25;
          hiddenColumns := useLocalStorage_initial true hiddenColumnsKey [] b;
          searchTerm := "";
          records := [];
          isLoading := false;
          editable := false |};
     browser := b' |}.

(** The effects that run after the first render: the two [useLocalStorage]
    cells fetch their stored value if they have not done so yet. *)
Definition mountEffects (m : Machine) : Machine :=
  let st := table m in
  let b := browser m in
  {| table :=
       putHiddenColumns
         (useLocalStorage_effect true hiddenColumnsKey [] b (hiddenColumns st))
         (putActiveFilters
            (useLocalStorage_effect false activeFiltersKey [] b (activeFilters st))
            st);
     browser := b |}.

Definition mount (b : Browser) : Machine := mountEffects (useTable b).

(** Any later render: the cells keep their content; the argument of
    [useState<string>(generateTableName())] is evaluated again and its
    value dropped. *)
Definition rerender (m : Machine) : Machine :=
  {| table := table m; browser := snd (generateTableName (browser m)) |}.

(** Unmounting discards the cells and keeps the browser. *)
Definition unmount (m : Machine) : Browser := browser m.

(** Callback used to refresh (reload) the table *)
Definition refreshTable (m : Machine) : Machine :=
  let '(key, b') := generateTableName (browser m) in
  {| table := setTableKey key (table m); browser := b' |}.

(** Array of active filters (saved to local storage) *)
Definition setActiveFilters (filters : list TableFilter) (m : Machine) : Machine :=
  {| table := putActiveFilters filters (table m);
     browser := writeStorageValue activeFiltersKey filters (browser m) |}.

(** Callback to clear all active filters from the table *)
Definition clearActiveFilters (m : Machine) : Machine :=
  setActiveFilters [] m.

(** A list of hidden columns, saved to local storage *)
Definition setHiddenColumns (columns : list string) (m : Machine) : Machine :=
  {| table := putHiddenColumns columns (table m);
     browser := writeStorageValue hiddenColumnsKey columns (browser m) |}.

End useTable.

(** Function to determine if a record is expanded *)
Definition isRowExpanded (st : TableState) (pk : Z) : bool :=
  includes (expandedRecords st) (Num pk).

(** Array of selected primary key values *)
Definition selectedIds (st : TableState) : result (list any) :=
  JS.map (λ r, pk ← get r "pk"; coalesce pk (get r "id")) (selectedRecords st).

Definition clearSelectedRecords (st : TableState) : TableState :=
  setSelectedRecords [] st.

Definition hasSelectedRecords (st : TableState) : bool :=
  bool_decide (Z.of_nat (length (selectedRecords st)) > 0).

(** The array [updateRecord] hands to [setRecords]: a copy of [records] in
    which [record] has taken the place of the first entry with its [pk], or
    has been pushed at the end when there is none. *)
Definition updatedRecords (records : list any) (record : any) : result (list any) :=
  let _records := records in
  index ← findIndex
    (λ r, a ← get r "pk"; b ← get record "pk"; Ok (strict_equals a b))
    _records;
  Ok (if bool_decide (index >= 0)
      then assign _records index record
      else push _records record).

(** Update a single record in the table, by primary key value *)
Definition updateRecord (record : any) (st : TableState) : result TableState :=
  _records ← updatedRecords (records st) record;
  Ok (setRecords _records st).

(** ** Calls and runs

    The callbacks of the returned object, as the events of a mounted table.
    A call goes through the callbacks of the latest render and is followed by
    a render. *)
Inductive Call : Type :=
  | CallRefreshTable
  | CallSetIsLoading (v : bool)
  | CallSetActiveFilters (filters : list TableFilter)
  | CallClearActiveFilters
  | CallSetExpandedRecords (l : list any)
  | CallSetSelectedRecords (l : list any)
  | CallClearSelectedRecords
  | CallSetHiddenColumns (columns : list string)
  | CallSetSearchTerm (term : string)
  | CallSetRecordCount (count : Z)
  | CallSetPage (p : Z)
  | CallSetPageSize (n : Z)
  | CallSetRecords (l : list any)
  | CallUpdateRecord (record : any)
  | CallSetEditable (v : bool).

Definition onTable (f : TableState → TableState) (m : Machine) : Machine :=
  {| table := f (table m); browser := browser m |}.

Definition handle (tableName : string) (c : Call) (m : Machine) : result Machine :=
  match c with
  | CallRefreshTable => Ok (refreshTable tableName m)
  | CallSetIsLoading v => Ok (onTable (setIsLoading v) m)
  | CallSetActiveFilters filters => Ok (setActiveFilters tableName filters m)
  | CallClearActiveFilters => Ok (clearActiveFilters tableName m)
  | CallSetExpandedRecords l => Ok (onTable (setExpandedRecords l) m)
  | CallSetSelectedRecords l => Ok (onTable (setSelectedRecords l) m)
  | CallClearSelectedRecords => Ok (onTable clearSelectedRecords m)
  | CallSetHiddenColumns columns => Ok (setHiddenColumns tableName columns m)
  | CallSetSearchTerm term => Ok (onTable (setSearchTerm term) m)
  | CallSetRecordCount count => Ok (onTable (setRecordCount count) m)
  | CallSetPage p => Ok (onTable (setPage p) m)
  | CallSetPageSize n => Ok (onTable (setPageSize n) m)
  | CallSetRecords l => Ok (onTable (setRecords l) m)
  | CallUpdateRecord record =>
      st ← updateRecord record (table m);
      Ok {| table := st; browser := browser m |}
  | CallSetEditable v => Ok (onTable (setEditable v) m)
  end.

Definition step (tableName : string) (m : Machine) (c : Call) : result Machine :=
  m' ← handle tableName c m;
  Ok (rerender tableName m').

Fixpoint run (tableName : string) (m : Machine) (cs : list Call) : result Machine :=
  match cs with
  | [] => Ok m
  | c :: cs' =>
      m' ← step tableName m c;
      run tableName m' cs'
  end.

(** ** The record keys *)

(** [r.pk] of a record object. *)
Definition pk_of (r : any) : any :=
  match r with
  | Obj _ props => default Undefined (props !! "pk")
  | _ => Undefined
  end.

(** The primary keys of a record list, as [===] sees them. *)
Definition pks (l : list any) : list ident := (identity ∘ pk_of) <$> l.

(** The key of a record in the words of the specification: its [pk] field,
    falling back to [id] when the record has no [pk]. *)
Definition key_of (r : any) : any :=
  match r with
  | Obj _ props =>
      match props !! "pk" with
      | Some k => if nullish k then default Undefined (props !! "id") else k
      | None => default Undefined (props !! "id")
      end
  | _ => Undefined
  end.

(** A record literal [{k1: v1, ...}] allocated at [addr]; of two entries
    for one name the later one stays. *)
Definition record (addr : nat) (fields : list (string * any)) : any :=
  Obj addr (list_to_map (reverse fields)).

(** ** Predicates used in the statements *)

(** [r.pk] is [undefined]: the record has no primary key. *)
Definition lacks_pk (r : any) : bool :=
  match pk_of r with
  | Undefined => true
  | _ => false
  end.

Definition is_setExpandedRecords (c : Call) : bool :=
  match c with
  | CallSetExpandedRecords _ => true
  | _ => false
  end.

(** The cells of the state, by name. *)
Inductive Field : Type :=
  | FTableKey | FActiveFilters | FExpandedRecords | FSelectedRecords
  | FRecordCount | FPage | FPageSize | FHiddenColumns | FSearchTerm
  | FRecords | FIsLoading | FEditable.

(** Two states hold the same value in cell [f]. *)
Definition agree (f : Field) (st st' : TableState) : Prop :=
  match f with
  | FTableKey => tableKey st = tableKey st'
  | FActiveFilters => activeFilters st = activeFilters st'
  | FExpandedRecords => expandedRecords st = expandedRecords st'
  | FSelectedRecords => selectedRecords st = selectedRecords st'
  | FRecordCount => recordCount st = recordCount st'
  | FPage => page st = page st'
  | FPageSize => pageSize st = pageSize st'
  | FHiddenColumns => hiddenColumns st = hiddenColumns st'
  | FSearchTerm => searchTerm st = searchTerm st'
  | FRecords => records st = records st'
  | FIsLoading => isLoading st = isLoading st'
  | FEditable => editable st = editable st'
  end.

(** The call leading from [m] to [m'] wrote cell [own] at most: the browser
    and every other cell are as before. *)
Definition sets_only (own : Field) (m m' : Machine) : Prop :=
  browser m' = browser m ∧ ∀ f, f ≠ own → agree f (table m) (table m').

(** [s] has a character other than the hyphen. *)
Fixpoint has_other (s : string) : bool :=
  match s with
  | EmptyString => false
  | String a s' => negb (Ascii.eqb a "-") || has_other s'
  end.

(** [s] has a hyphen with a character other than the hyphen somewhere after
    it. *)
Fixpoint hyphen_inside (s : string) : bool :=
  match s with
  | EmptyString => false
  | String a s' => if Ascii.eqb a "-" then has_other s' else hyphen_inside s'
  end.

(** [s] contains a hyphen. *)
Fixpoint has_hyphen (s : string) : bool :=
  match s with
  | EmptyString => false
  | String a s' => Ascii.eqb a "-" || has_hyphen s'
  end.

(** Nothing is stored for the table name yet. *)
Definition unseen (tableName : string) (b : Browser) : Prop :=
  localStorage b !! activeFiltersKey tableName = None ∧
  localStorage b !! hiddenColumnsKey tableName = None.

(** The storage and the two persisted cells of a mounted table agree. *)
Definition in_sync (tableName : string) (m : Machine) : Prop :=
  readStorageValue (activeFiltersKey tableName) [] (localStorage (browser m))
  = activeFilters (table m) ∧
  readStorageValue (hiddenColumnsKey tableName) [] (localStorage (browser m))
  = hiddenColumns (table m).

(** ** Further names for the statements *)

(** The callback [updateRecord] hands to [findIndex]:
    [(r) => r.pk === record.pk]. *)
Definition samePk (record r : any) : result bool :=
  a ← get r "pk"; b ← get record "pk"; Ok (strict_equals a b).

(** The cell a callback writes. *)
Definition cell_of_call (c : Call) : Field :=
  match c with
  | CallRefreshTable => FTableKey
  | CallSetIsLoading _ => FIsLoading
  | CallSetActiveFilters _ | CallClearActiveFilters => FActiveFilters
  | CallSetExpandedRecords _ => FExpandedRecords
  | CallSetSelectedRecords _ | CallClearSelectedRecords => FSelectedRecords
  | CallSetHiddenColumns _ => FHiddenColumns
  | CallSetSearchTerm _ => FSearchTerm
  | CallSetRecordCount _ => FRecordCount
  | CallSetPage _ => FPage
  | CallSetPageSize _ => FPageSize
  | CallSetRecords _ | CallUpdateRecord _ => FRecords
  | CallSetEditable _ => FEditable
  end.

(** The callbacks that go through a [useLocalStorage] setter. *)
Definition writes_storage (c : Call) : bool :=
  match c with
  | CallSetActiveFilters _ | CallClearActiveFilters | CallSetHiddenColumns _ => true
  | _ => false
  end.

(** ** The sales order line item table

    [SalesOrderLineItemTable] holds [useTable('sales-order-line-item')].  The
    [onFormSuccess] callback it gives to the stock allocation form calls
    [table.refreshTable()] and then [table.clearSelectedRecords()], both of
    the same render. *)
Definition allocateStock_onFormSuccess (m : Machine) : Machine :=
  onTable clearSelectedRecords (refreshTable "sales-order-line-item" m).

(** ** Calls made from one render

    The callbacks are closures of the render that made them.  The setters
    store the value they are given, whatever is pending; [updateRecord] alone
    reads a cell, and it reads the [records] its render saw: the array it
    hands to [setRecords] is computed from that list, also when an earlier
    call of the same render has already asked for another one. *)

(** The callback [c] of the render that saw the state [seen], called while
    the state [m] is pending. *)
Definition handleOf (tableName : string) (seen : TableState) (c : Call) (m : Machine)
    : result Machine :=
  match c with
  | CallUpdateRecord record =>
      _records ← updatedRecords (records seen) record;
      Ok (onTable (setRecords _records) m)
  | _ => handle tableName c m
  end.

Fixpoint callsOf (tableName : string) (seen : TableState) (cs : list Call) (m : Machine)
    : result Machine :=
  match cs with
  | [] => Ok m
  | c :: cs' =>
      m' ← handleOf tableName seen c m;
      callsOf tableName seen cs' m'
  end.

(** One event: its handler calls the callbacks [cs] of the latest render one
    after the other, then the table renders. *)
Definition event (tableName : string) (m : Machine) (cs : list Call) : result Machine :=
  m' ← callsOf tableName (table m) cs m;
  Ok (rerender tableName m').

Fixpoint runEvents (tableName : string) (m : Machine) (events : list (list Call))
    : result Machine :=
  match events with
  | [] => Ok m
  | cs :: events' =>
      m' ← event tableName m cs;
      runEvents tableName m' events'
  end.

(** ** Sample data *)

(** A browser with empty storage whose [randomId()] counts up. *)
Definition fresh_browser : Browser :=
  {| localStorage := ∅;
     randomIds := λ n, "mantine-" +:+ pretty n;
     randomCalls := 0 |}.

(** A browser whose [randomId()] returns the same identifier twice in a row. *)
Definition repeating_browser : Browser :=
  {| localStorage := ∅;
     randomIds := λ n, "mantine-k3x9q0d2a";
     randomCalls := 0 |}.

Definition sample_records : list any :=
  [record 0 [("pk", Num 1); ("v", Str "a")];
   record 1 [("pk", Num 2); ("v", Str "b")]].

Definition sample_machine : Machine :=
  onTable (setRecords sample_records) (mount "parts" fresh_browser).

Example updateRecord_spec_example_1 :
  updatedRecords
    [record 0 [("pk", Num 1); ("v", Str "a")]; record 1 [("pk", Num 2); ("v", Str "b")]]
    (record 2 [("pk", Num 1); ("v", Str "c")])
  = Ok [record 2 [("pk", Num 1); ("v", Str "c")]; record 1 [("pk", Num 2); ("v", Str "b")]].
Proof. reflexivity. Qed.

Example updateRecord_spec_example_2 :
  updatedRecords
    [record 2 [("pk", Num 1); ("v", Str "c")]; record 1 [("pk", Num 2); ("v", Str "b")]]
    (record 3 [("pk", Num 3); ("v", Str "d")])
  = Ok [record 2 [("pk", Num 1); ("v", Str "c")]; record 1 [("pk", Num 2); ("v", Str "b")];
        record 3 [("pk", Num 3); ("v", Str "d")]].
Proof. reflexivity. Qed.

(** * Properties *)

(** ** The built-ins *)

Lemma strict_equals_identity (x y : any) :
  strict_equals x y = true ↔ identity x = identity y.
Proof.
  destruct x, y; simpl; try (split; [discriminate | congruence]); try done.
  - rewrite Bool.eqb_true_iff. split; congruence.
  - rewrite Z.eqb_eq. split; congruence.
  - rewrite String.eqb_eq. split; congruence.
  - rewrite Nat.eqb_eq. split; congruence.
Qed.

Lemma strict_equals_decide (x y : any) :
  strict_equals x y = bool_decide (identity x = identity y).
Proof.
  apply eq_true_iff_eq. rewrite strict_equals_identity.
  symmetry. apply bool_decide_eq_true.
Qed.

Lemma get_pk (r : any) : is_object r → get r "pk" = Ok (pk_of r).
Proof. by destruct r. Qed.

Lemma findIndex_from_find {A : Type} (P : A → Prop) `{∀ x, Decision (P x)}
    (p : A → result bool) (l : list A) (i : Z) :
  Forall (λ x, p x = Ok (bool_decide (P x))) l →
  findIndex_from p l i =
    Ok (match list_find P l with
        | Some (j, _) => i + Z.of_nat j
        | None => -1
        end).
Proof.
  intros Hp. revert i. induction Hp as [|x l Hx _ IH]; intros i; simpl.
  - done.
  - rewrite Hx. simpl. case_decide as HP.
    + rewrite bool_decide_eq_true_2 by done. simpl. f_equal. lia.
    + rewrite bool_decide_eq_false_2 by done. rewrite IH.
      destruct (list_find P l) as [[j y]|]; simpl; [f_equal; lia | done].
Qed.

Lemma includes_Num (l : list any) (z : Z) :
  includes l (Num z) = true ↔ Num z ∈ l.
Proof.
  unfold includes. rewrite existsb_exists. split.
  - intros (e & Hin & He). apply list_elem_of_In.
    destruct e; try discriminate. simpl in He.
    apply Z.eqb_eq in He. by subst.
  - intros Hin. exists (Num z). split; [by apply list_elem_of_In |].
    simpl. apply Z.eqb_refl.
Qed.

(** ** [updateRecord] *)

(** On record objects the scan of [updateRecord] finds the first entry with
    the primary key of the new record. *)
Lemma updatedRecords_find (l : list any) (r : any) :
  Forall is_object l → is_object r →
  updatedRecords l r =
    Ok (match list_find (λ c, identity (pk_of c) = identity (pk_of r)) l with
        | Some (j, _) => <[j := r]> l
        | None => l ++ [r]
        end).
Proof.
  intros Hl Hr. unfold updatedRecords, findIndex.
  rewrite (findIndex_from_find (λ c, identity (pk_of c) = identity (pk_of r))).
  - simpl.
    destruct (list_find _ l) as [[j c]|] eqn:Hfind.
    + apply list_find_Some in Hfind as (Hj & _ & _).
      apply lookup_lt_Some in Hj.
      rewrite bool_decide_eq_true_2 by lia.
      unfold assign. rewrite Z.add_0_l, Nat2Z.id.
      by rewrite decide_True.
    + by rewrite bool_decide_eq_false_2 by lia.
  - eapply Forall_impl; [exact Hl |]. intros c Hc. simpl.
    rewrite (get_pk c Hc), (get_pk r Hr). simpl.
    by rewrite strict_equals_decide.
Qed.

Lemma pks_app (l1 l2 : list any) : pks (l1 ++ l2) = pks l1 ++ pks l2.
Proof. apply fmap_app. Qed.

(** A match of the scan is replaced where it stands. *)
Lemma updatedRecords_replace (l : list any) (r c : any) (i : nat) :
  Forall is_object l → is_object r → NoDup (pks l) →
  l !! i = Some c → strict_equals (pk_of c) (pk_of r) = true →
  updatedRecords l r = Ok (<[i := r]> l).
Proof.
  intros Hl Hr Hnd Hi Heq. apply strict_equals_identity in Heq.
  rewrite updatedRecords_find by done.
  destruct (list_find _ l) as [[j d]|] eqn:Hfind.
  - apply list_find_Some in Hfind as (Hj & Hd & _).
    assert (i = j) as ->; [| done].
    eapply NoDup_lookup; [exact Hnd | |].
    + unfold pks. rewrite list_lookup_fmap, Hi. reflexivity.
    + unfold pks. rewrite list_lookup_fmap, Hj. simpl. by rewrite Hd, Heq.
  - eapply list_find_None, Forall_lookup in Hfind; [| exact Hi]. done.
Qed.

(** Without a match the record goes to the end. *)
Lemma updatedRecords_append (l : list any) (r : any) :
  Forall is_object l → is_object r →
  identity (pk_of r) ∉ pks l →
  updatedRecords l r = Ok (l ++ [r]).
Proof.
  intros Hl Hr Hnot. rewrite updatedRecords_find by done.
  destruct (list_find _ l) as [[j d]|] eqn:Hfind; [| done].
  apply list_find_Some in Hfind as (Hj & Hd & _).
  exfalso. apply Hnot. rewrite <- Hd.
  apply list_elem_of_fmap. exists d. split; [done |].
  by eapply list_elem_of_lookup_2.
Qed.

(** The primary keys after one call: unchanged when the key was there, one
    more at the end when it was not. *)
Lemma updatedRecords_pks (l : list any) (r : any) :
  Forall is_object l → is_object r →
  ∃ l', updatedRecords l r = Ok l' ∧ Forall is_object l' ∧
        pks l' = if decide (identity (pk_of r) ∈ pks l) then pks l
                 else pks l ++ [identity (pk_of r)].
Proof.
  intros Hl Hr. rewrite updatedRecords_find by done.
  destruct (list_find _ l) as [[j d]|] eqn:Hfind.
  - apply list_find_Some in Hfind as (Hj & Hd & _).
    exists (<[j := r]> l). split; [done |]. split.
    + by apply Forall_insert.
    + rewrite decide_True.
      * unfold pks. rewrite list_fmap_insert. apply list_insert_id.
        rewrite list_lookup_fmap, Hj. simpl. by rewrite Hd.
      * rewrite <- Hd. apply list_elem_of_fmap. exists d.
        split; [done | by eapply list_elem_of_lookup_2].
  - exists (l ++ [r]). split; [done |]. split.
    + apply Forall_app. split; [done | by constructor].
    + rewrite decide_False; [by rewrite pks_app |].
      intros (c & Hc & Hin)%list_elem_of_fmap.
      eapply list_find_None, Forall_forall in Hfind; [| exact Hin].
      simpl in Hc. congruence.
Qed.

(** A run of [updateRecord] calls from a list of records with distinct keys. *)
Lemma run_updateRecord (tableName : string) (m : Machine) (calls : list any) :
  Forall is_object (records (table m)) → Forall is_object calls →
  NoDup (pks (records (table m))) →
  ∃ m', run tableName m (CallUpdateRecord <$> calls) = Ok m' ∧
        Forall is_object (records (table m')) ∧
        NoDup (pks (records (table m'))) ∧
        pks (records (table m)) `prefix_of` pks (records (table m')) ∧
        ∀ k, k ∈ pks (records (table m')) ↔
             k ∈ pks (records (table m)) ∨ k ∈ pks calls.
Proof.
  intros Hl Hcalls. revert m Hl.
  induction Hcalls as [|r calls Hr _ IH]; intros m Hl Hnd.
  - exists m. simpl. repeat split; try done.
    + intros Hk. by left.
    + intros [Hk | Hk]; [done |]. by apply elem_of_nil in Hk.
  - destruct (updatedRecords_pks _ r Hl Hr) as (l' & Hup & Hl' & Hpks).
    simpl. unfold step at 1, handle, updateRecord. rewrite Hup. simpl.
    set (m1 := rerender tableName _).
    assert (records (table m1) = l') as Hm1 by done.
    assert (NoDup (pks l')) as Hnd'.
    { rewrite Hpks. case_decide as Hin; [done |].
      apply NoDup_app. repeat split; [done | | apply NoDup_singleton].
      intros k Hk ->%list_elem_of_singleton. done. }
    destruct (IH m1) as (m' & Hrun & Hobj & Hnd'' & Hpre & Hkeys).
    { by rewrite Hm1. }
    { by rewrite Hm1. }
    exists m'. rewrite Hm1 in Hpre, Hkeys. repeat split; try done.
    + etrans; [| exact Hpre]. rewrite Hpks.
      case_decide; [done | by apply prefix_app_r].
    + intros Hk. apply Hkeys in Hk as [Hk | Hk].
      * rewrite Hpks in Hk. case_decide; [by left |].
        apply elem_of_app in Hk as [Hk | Hk%list_elem_of_singleton]; [by left |].
        right. subst k. apply list_elem_of_here.
      * right. by apply list_elem_of_further.
    + intros [Hk | Hk]; apply Hkeys.
      * left. rewrite Hpks. case_decide; [done |]. apply elem_of_app. by left.
      * apply elem_of_cons in Hk as [-> | Hk]; [| by right].
        left. rewrite Hpks. case_decide; [done |].
        apply elem_of_app. right. by apply list_elem_of_singleton.
Qed.

Lemma handleOf_latest (tableName : string) (c : Call) (m : Machine) :
  handleOf tableName (table m) c m = handle tableName c m.
Proof.
  destruct c; try reflexivity. simpl. unfold updateRecord.
  by destruct (updatedRecords _ _).
Qed.

(** A run is a sequence of events of one call each. *)
Lemma run_runEvents (tableName : string) (m : Machine) (cs : list Call) :
  runEvents tableName m ((λ c, [c]) <$> cs) = run tableName m cs.
Proof.
  revert m. induction cs as [|c cs IH]; intros m; simpl; [done |].
  unfold event, step. simpl. rewrite handleOf_latest.
  destruct (handle tableName c m) as [m1|]; simpl; [apply IH | done].
Qed.

(** C1, as the code has it.  From a record list whose entries have distinct
    [pk] values, every sequence of [updateRecord] calls, each made through
    the callback of the latest render, succeeds and leaves a list with
    exactly one entry per distinct [pk]: the keys stay distinct, they are
    those of the starting list and of the calls, and the starting keys keep
    their positions.  On the list so reached, a call whose [pk] equals that
    of the entry at index [i] replaces that entry and leaves every other
    index as it was, and a call whose [pk] matches no entry appends its
    record. *)
Theorem updateRecord_one_entry_per_pk
    (tableName : string) (m : Machine) (calls : list any) :
  Forall is_object (records (table m)) →
  Forall is_object calls →
  NoDup (pks (records (table m))) →
  ∃ m', runEvents tableName m ((λ r, [CallUpdateRecord r]) <$> calls) = Ok m' ∧
    let final := records (table m') in
    NoDup (pks final) ∧
    (∀ k, k ∈ pks final ↔ k ∈ pks (records (table m)) ∨ k ∈ pks calls) ∧
    pks (records (table m)) `prefix_of` pks final ∧
    ∀ r, is_object r →
      (∀ i c, final !! i = Some c →
              strict_equals (pk_of c) (pk_of r) = true →
              event tableName m' [CallUpdateRecord r]
              = Ok (rerender tableName (onTable (setRecords (<[i := r]> final)) m'))) ∧
      ((∀ c, c ∈ final → strict_equals (pk_of c) (pk_of r) = false) →
       event tableName m' [CallUpdateRecord r]
       = Ok (rerender tableName (onTable (setRecords (final ++ [r])) m'))).
Proof.
  intros Hl Hcalls Hnd.
  destruct (run_updateRecord tableName m calls Hl Hcalls Hnd)
    as (m' & Hrun & Hobj & Hnd' & Hpre & Hkeys).
  exists m'. split.
  { rewrite <- Hrun, <- run_runEvents. by rewrite <- list_fmap_compose. }
  simpl. repeat split; try done.
  - by apply Hkeys.
  - by apply Hkeys.
  - intros i c Hi Heq. unfold event. simpl.
    by rewrite (updatedRecords_replace _ r c i).
  - intros Hnone. unfold event. simpl.
    rewrite updatedRecords_append; [done.. |].
    intros (c & Hc & Hin)%list_elem_of_fmap. simpl in Hc.
    specialize (Hnone c Hin).
    symmetry in Hc. apply strict_equals_identity in Hc. congruence.
Qed.

Lemma updateRecord_one_entry_per_pk_witness :
  ∃ m', runEvents "parts" sample_machine
          [[CallUpdateRecord (record 2 [("pk", Num 1); ("v", Str "c")])];
           [CallUpdateRecord (record 3 [("pk", Num 3); ("v", Str "d")])]] = Ok m' ∧
        NoDup (pks (records (table m'))).
Proof.
  destruct (updateRecord_one_entry_per_pk "parts" sample_machine
              [record 2 [("pk", Num 1); ("v", Str "c")];
               record 3 [("pk", Num 3); ("v", Str "d")]])
    as (m' & Hrun & Hnd & _).
  - by repeat constructor.
  - by repeat constructor.
  - compute_done.
  - exists m'. by split.
Defined.

(** C1, as stated, fails for two calls made from one render: both start from
    the list that render saw, and the record of the first call is lost. *)
Lemma updateRecord_same_render_loses_update :
  ∃ m', event "parts" sample_machine
          [CallUpdateRecord (record 2 [("pk", Num 3); ("v", Str "c")]);
           CallUpdateRecord (record 3 [("pk", Num 4); ("v", Str "d")])] = Ok m' ∧
        records (table m')
        = sample_records ++ [record 3 [("pk", Num 4); ("v", Str "d")]] ∧
        pks (records (table m')) = [INum 1; INum 2; INum 4] ∧
        INum 3 ∉ pks (records (table m')).
Proof.
  eexists. split; [reflexivity |]. split; [reflexivity |].
  split; [reflexivity |]. compute_done.
Qed.

Lemma identity_Undefined (v : any) : identity v = IUndefined → v = Undefined.
Proof. by destruct v. Qed.

Lemma lacks_pk_Undefined (r : any) : lacks_pk r = true ↔ pk_of r = Undefined.
Proof. unfold lacks_pk. by destruct (pk_of r). Qed.

(** C10.  Records without a [pk] share one key: when the cache holds a
    record without [pk], [updateRecord] of a record that has none either
    replaces the first such entry of the cache, whatever the two records
    are otherwise, and appends nothing. *)
Theorem updateRecord_pkless_share_key
    (st : TableState) (before after : list any) (c r : any) :
  records st = before ++ c :: after →
  Forall is_object (records st) → is_object r →
  Forall (λ x, lacks_pk x = false) before →
  lacks_pk c = true → lacks_pk r = true →
  updateRecord r st = Ok (setRecords (before ++ r :: after) st).
Proof.
  intros Hrecs Hl Hr Hbefore Hc%lacks_pk_Undefined Hrpk%lacks_pk_Undefined.
  unfold updateRecord. rewrite updatedRecords_find by done. rewrite Hrecs.
  assert (list_find (λ x, identity (pk_of x) = identity (pk_of r))
            (before ++ c :: after) = Some (length before, c)) as ->.
  { apply list_find_Some. split; [| split].
    - by rewrite list_lookup_middle.
    - by rewrite Hc, Hrpk.
    - intros j y Hj Hlt Hy.
      rewrite lookup_app_l in Hj by done.
      eapply Forall_lookup in Hbefore; [| exact Hj]. simpl in Hbefore.
      rewrite Hrpk in Hy. apply identity_Undefined in Hy.
      apply lacks_pk_Undefined in Hy. congruence. }
  simpl. rewrite insert_app_r_alt by done. by rewrite Nat.sub_diag.
Qed.

Lemma updateRecord_pkless_share_key_witness :
  updateRecord (record 7 [("id", Num 9); ("v", Str "z")])
    (setRecords
       [record 0 [("pk", Num 1)]; record 1 [("id", Num 4)]; record 2 [("id", Num 5)]]
       (table sample_machine))
  = Ok (setRecords
          [record 0 [("pk", Num 1)]; record 7 [("id", Num 9); ("v", Str "z")];
           record 2 [("id", Num 5)]]
          (setRecords
             [record 0 [("pk", Num 1)]; record 1 [("id", Num 4)]; record 2 [("id", Num 5)]]
             (table sample_machine))).
Proof.
  apply (updateRecord_pkless_share_key _ [record 0 [("pk", Num 1)]]
           [record 2 [("id", Num 5)]] (record 1 [("id", Num 4)])).
  - reflexivity.
  - by repeat constructor.
  - reflexivity.
  - by repeat constructor.
  - reflexivity.
  - reflexivity.
Defined.

(** C2.  [updateRecord] does not fall back to [id]: with two cached records
    that have no [pk] and the ids 1 and 2, the call for id 2 overwrites the
    record with id 1 and leaves the one with id 2 in place, where the key
    convention asks for the second entry to be replaced. *)
Theorem updateRecord_ignores_id :
  let cache := [record 0 [("id", Num 1); ("v", Str "a")];
                record 1 [("id", Num 2); ("v", Str "b")]] in
  let r := record 2 [("id", Num 2); ("v", Str "c")] in
  key_of <$> cache = [Num 1; Num 2] ∧ key_of r = Num 2 ∧
  updatedRecords cache r
  = Ok [record 2 [("id", Num 2); ("v", Str "c")];
        record 1 [("id", Num 2); ("v", Str "b")]] ∧
  updatedRecords cache r ≠ Ok (<[1%nat := r]> cache).
Proof. repeat split. discriminate. Qed.

(** ** Runs *)

(** A property kept by every callback and by rendering holds along a run. *)
Lemma run_invariant (P : Machine → Prop) (tableName : string) :
  (∀ m c m', P m → handle tableName c m = Ok m' → P m') →
  (∀ m, P m → P (rerender tableName m)) →
  ∀ cs m m', P m → run tableName m cs = Ok m' → P m'.
Proof.
  intros Hhandle Hrender cs.
  induction cs as [|c cs IH]; intros m m' HP Hrun; simpl in Hrun.
  - by injection Hrun as <-.
  - unfold step in Hrun.
    destruct (handle tableName c m) as [m1|] eqn:Hc; [| done].
    simpl in Hrun. eapply IH; [| exact Hrun].
    apply Hrender. by eapply Hhandle.
Qed.

Lemma handle_expandedRecords (tableName : string) (c : Call) (m m' : Machine) :
  ¬ is_setExpandedRecords c → handle tableName c m = Ok m' →
  expandedRecords (table m') = expandedRecords (table m).
Proof.
  intros Hc Hm'. destruct c; simpl in *; try done;
    try (by injection Hm' as <-).
  unfold updateRecord in Hm'.
  destruct (updatedRecords _ _) as [l|]; [| done]. by injection Hm' as <-.
Qed.

(** ** Row expansion *)

(** C3.  [setExpandedRecords(entries)] succeeds, and from then on, whatever
    other callbacks are called afterwards, [isRowExpanded(pk)] is true
    exactly when the number [pk] is one of the entries last set; entries
    that are record objects are not keys and never make it true. *)
Theorem isRowExpanded_iff_member
    (tableName : string) (m : Machine) (entries : list any) (pk : Z) :
  ∃ m1, step tableName m (CallSetExpandedRecords entries) = Ok m1 ∧
    (isRowExpanded (table m1) pk = true ↔ Num pk ∈ entries) ∧
    (Forall is_object entries → isRowExpanded (table m1) pk = false) ∧
    ∀ later m',
      Forall (λ c, ¬ is_setExpandedRecords c) later →
      run tableName m1 later = Ok m' →
      isRowExpanded (table m') pk = true ↔ Num pk ∈ entries.
Proof.
  eexists. split; [reflexivity |].
  set (m1 := rerender tableName _).
  assert (∀ later m', Forall (λ c, ¬ is_setExpandedRecords c) later →
            run tableName m1 later = Ok m' →
            expandedRecords (table m') = entries) as Hkeep.
  { change entries with (expandedRecords (table m1)).
    clearbody m1. intros later m' Hlater. revert m1.
    induction Hlater as [|c later Hc _ IH]; intros m1 Hrun; simpl in Hrun.
    - by injection Hrun as <-.
    - unfold step in Hrun.
      destruct (handle tableName c m1) as [m2|] eqn:Hm2; [| done].
      simpl in Hrun. apply IH in Hrun. rewrite Hrun. simpl.
      by eapply handle_expandedRecords. }
  assert (isRowExpanded (table m1) pk = true ↔ Num pk ∈ entries) as Hnow.
  { unfold isRowExpanded. by rewrite includes_Num. }
  split; [done |]. split.
  - intros Hobj. apply not_true_is_false. intros Hin%Hnow.
    eapply Forall_forall in Hobj; [| exact Hin]. done.
  - intros later m' Hlater Hrun. unfold isRowExpanded.
    by rewrite includes_Num, (Hkeep later m').
Qed.

Lemma isRowExpanded_iff_member_witness :
  isRowExpanded
    (table (rerender "parts" (onTable (setPage 2)
       (rerender "parts" (onTable (setExpandedRecords [Num 3; record 0 [("pk", Num 4)]])
          sample_machine)))))
    3 = true
  ↔ Num 3 ∈ [Num 3; record 0 [("pk", Num 4)]].
Proof.
  destruct (isRowExpanded_iff_member "parts" sample_machine
              [Num 3; record 0 [("pk", Num 4)]] 3) as (m1 & Hm1 & _ & _ & Hlater).
  injection Hm1 as <-.
  apply (Hlater [CallSetPage 2]).
  - repeat constructor. simpl. tauto.
  - reflexivity.
Defined.

(** ** The identity token *)

Lemma append_inj_r (s a b : string) : s +:+ a = s +:+ b → a = b.
Proof.
  induction s as [|c s IH]; simpl; [done |].
  intros Heq. injection Heq as Heq. by apply IH.
Qed.

Lemma generateTableName_fst (tableName : string) (b : Browser) :
  fst (generateTableName tableName b)
  = replaceAll "-" "" tableName +:+ "-" +:+ randomIds b (randomCalls b).
Proof. reflexivity. Qed.

Lemma handle_tableKey (tableName : string) (c : Call) (m m' : Machine) :
  handle tableName c m = Ok m' →
  tableKey (table m') = tableKey (table m) ∨
  tableKey (table m') = fst (generateTableName tableName (browser m)).
Proof.
  intros Hm'. destruct c; simpl in *;
    try (left; by injection Hm' as <-).
  - right. by injection Hm' as <-.
  - left. unfold updateRecord in Hm'.
    destruct (updatedRecords _ _) as [l|]; [| done]. by injection Hm' as <-.
Qed.

(** Every token of a mounted table is the hyphen-free table name, a hyphen
    and an identifier drawn from [randomId()]. *)
Lemma run_tableKey (tableName : string) (b : Browser) (cs : list Call) (m : Machine) :
  run tableName (mount tableName b) cs = Ok m →
  ∃ id, tableKey (table m) = replaceAll "-" "" tableName +:+ "-" +:+ id.
Proof.
  apply (run_invariant
    (λ m, ∃ id, tableKey (table m) = replaceAll "-" "" tableName +:+ "-" +:+ id)).
  - intros m0 c m1 [id Hid] [Hc | Hc]%handle_tableKey.
    + exists id. by rewrite Hc.
    + eexists. rewrite Hc. apply generateTableName_fst.
  - done.
  - eexists. reflexivity.
Qed.

(** C4, as the code has it.  At any point of the life of a mounted table,
    [refreshTable()] replaces the token by one built from a newly drawn
    [randomId()]; the new token differs from the previous one exactly when
    the identifier drawn differs from the one in the previous token. *)
Theorem refreshTable_new_token
    (tableName : string) (b : Browser) (cs : list Call) (m : Machine) :
  run tableName (mount tableName b) cs = Ok m →
  ∃ id, tableKey (table m) = replaceAll "-" "" tableName +:+ "-" +:+ id ∧
    let id' := randomIds (browser m) (randomCalls (browser m)) in
    let m' := refreshTable tableName m in
    tableKey (table m') = replaceAll "-" "" tableName +:+ "-" +:+ id' ∧
    (tableKey (table m') ≠ tableKey (table m) ↔ id' ≠ id).
Proof.
  intros [id Hid]%run_tableKey. exists id. split; [done |]. simpl.
  split; [done |].
  change (tableKey (table (refreshTable tableName m)))
    with (replaceAll "-" "" tableName +:+ "-"
            +:+ randomIds (browser m) (randomCalls (browser m))).
  rewrite Hid. split.
  - intros Hne Heq. apply Hne. by rewrite Heq.
  - intros Hne Heq. apply Hne.
    apply append_inj_r in Heq. by apply (append_inj_r "-") in Heq.
Qed.

Lemma refreshTable_new_token_witness :
  ∃ id, tableKey (table (rerender "parts" (refreshTable "parts" (mount "parts" fresh_browser))))
        = "parts-" +:+ id.
Proof.
  destruct (refreshTable_new_token "parts" fresh_browser [CallRefreshTable]
              (rerender "parts" (refreshTable "parts" (mount "parts" fresh_browser))))
    as (id & Hid & _).
  - reflexivity.
  - exists id. exact Hid.
Defined.

(** C4, as stated, fails when [randomId()] returns the identifier of the
    current token again: the refreshed token is the previous one. *)
Lemma refreshTable_token_can_repeat :
  let m := mount "parts" repeating_browser in
  tableKey (table (refreshTable "parts" m)) = tableKey (table m).
Proof. reflexivity. Qed.

Lemma has_other_replaceAll (s : string) :
  has_other s = true →
  ∃ c u, replaceAll "-" "" s = String c u ∧ c ≠ "-"%char.
Proof.
  induction s as [|a s IH]; simpl; [done |].
  destruct (Ascii.eqb a "-") eqn:Ha; simpl.
  - exact IH.
  - intros _. exists a, (replaceAll "-" "" s). split; [done |].
    by apply Ascii.eqb_neq.
Qed.

Lemma append_empty_l (s : string) : "" +:+ s = s.
Proof. reflexivity. Qed.

Lemma append_String (c : ascii) (s t : string) :
  String c s +:+ t = String c (s +:+ t).
Proof. reflexivity. Qed.

Lemma prefix_cons (a b : ascii) (s1 s2 : string) :
  String.prefix (String a s1) (String b s2)
  = if ascii_dec a b then String.prefix s1 s2 else false.
Proof. reflexivity. Qed.

Lemma prefix_hyphen_inside (s t : string) :
  hyphen_inside s = true →
  String.prefix s (replaceAll "-" "" s +:+ t) = false.
Proof.
  induction s as [|a s IH]; [done |].
  cbn [hyphen_inside replaceAll].
  destruct (Ascii.eqb a "-") eqn:Ha.
  - intros (c & u & Hcu & Hc)%has_other_replaceAll.
    rewrite Hcu, append_empty_l, append_String, prefix_cons. apply Ascii.eqb_eq in Ha.
    destruct (ascii_dec a c); [congruence | done].
  - intros Hs. rewrite append_String, prefix_cons.
    destruct (ascii_dec a a); [by apply IH | done].
Qed.

(** C9, as the code has it.  The token made on mount and by every
    [refreshTable()] is the table name without its hyphens, a hyphen and the
    identifier drawn; for a table name in which a hyphen is followed by some
    other character the token does not begin with the table name, while both
    storage keys end in the table name as it is. *)
Theorem tableKey_drops_hyphens (tableName : string) (b : Browser) (m : Machine) :
  let token id := replaceAll "-" "" tableName +:+ "-" +:+ id in
  tableKey (table (useTable tableName b)) = token (randomIds b (randomCalls b)) ∧
  tableKey (table (mount tableName b)) = token (randomIds b (randomCalls b)) ∧
  tableKey (table (refreshTable tableName m))
  = token (randomIds (browser m) (randomCalls (browser m))) ∧
  (hyphen_inside tableName = true →
   ∀ id, String.prefix tableName (token id) = false) ∧
  activeFiltersKey tableName = "inventree-table-filters-" +:+ tableName ∧
  hiddenColumnsKey tableName = "inventree-hidden-table-columns-" +:+ tableName.
Proof.
  simpl. repeat split.
  intros Hname id. by apply prefix_hyphen_inside.
Qed.

Lemma tableKey_drops_hyphens_witness :
  hyphen_inside "sales-order-line-item" = true ∧
  tableKey (table (useTable "sales-order-line-item" fresh_browser))
  = "salesorderlineitem-mantine-0" ∧
  String.prefix "sales-order-line-item"
    (tableKey (table (useTable "sales-order-line-item" fresh_browser))) = false ∧
  activeFiltersKey "sales-order-line-item"
  = "inventree-table-filters-sales-order-line-item".
Proof.
  destruct (tableKey_drops_hyphens "sales-order-line-item" fresh_browser sample_machine)
    as (Hkey & _ & _ & Hprefix & Hfilters & _).
  split; [reflexivity |]. split; [exact Hkey |]. split.
  - rewrite Hkey. by apply Hprefix.
  - exact Hfilters.
Defined.

(** C9, as stated, fails for a table name whose only hyphen is its last
    character: the token begins with the table name. *)
Lemma trailing_hyphen_name_prefixes_token :
  has_hyphen "parts-" = true ∧
  tableKey (table (useTable "parts-" fresh_browser)) = "parts-mantine-0" ∧
  String.prefix "parts-" (tableKey (table (useTable "parts-" fresh_browser))) = true.
Proof. repeat split. Qed.

(** C6.  A fresh mount of the table named ["parts"]: the token is ["parts-"]
    followed by the identifier drawn, the page is 1, the page size 25, there
    are no records and the record count is 0, on the first render and after
    the effects of the mount, whatever the storage holds. *)
Theorem fresh_mount_parts (b : Browser) :
  let first := table (useTable "parts" b) in
  let mounted := table (mount "parts" b) in
  (tableKey first = "parts-" +:+ randomIds b (randomCalls b) ∧
   page first = 1 ∧ pageSize first = 25 ∧
   records first = [] ∧ recordCount first = 0) ∧
  (tableKey mounted = "parts-" +:+ randomIds b (randomCalls b) ∧
   page mounted = 1 ∧ pageSize mounted = 25 ∧
   records mounted = [] ∧ recordCount mounted = 0).
Proof. done. Qed.

(** ** Persisted cells *)

Lemma activeFiltersKey_inj (n1 n2 : string) :
  activeFiltersKey n1 = activeFiltersKey n2 → n1 = n2.
Proof. apply append_inj_r. Qed.

Lemma hiddenColumnsKey_inj (n1 n2 : string) :
  hiddenColumnsKey n1 = hiddenColumnsKey n2 → n1 = n2.
Proof. apply append_inj_r. Qed.

(** The two families of keys never meet. *)
Lemma keys_disjoint (n1 n2 : string) : activeFiltersKey n1 ≠ hiddenColumnsKey n2.
Proof.
  unfold activeFiltersKey, hiddenColumnsKey. intros Heq.
  repeat rewrite append_String in Heq. discriminate Heq.
Qed.

Lemma read_after_write `{Serializable A} (key : string) (v d : A) (b : Browser) :
  readStorageValue key d (localStorage (writeStorageValue key v b)) = v.
Proof.
  unfold readStorageValue, writeStorageValue. simpl.
  by rewrite lookup_insert_eq, deserialize_serialize.
Qed.

Lemma read_other_key `{Serializable A} `{Serializable B}
    (key key' : string) (v : A) (d : B) (b : Browser) :
  key ≠ key' →
  readStorageValue key' d (localStorage (writeStorageValue key v b))
  = readStorageValue key' d (localStorage b).
Proof.
  intros Hne. unfold readStorageValue, writeStorageValue. simpl.
  by rewrite lookup_insert_ne.
Qed.

(** What a mount reads is what the storage holds under the two keys. *)
Lemma mount_persisted (tableName : string) (b : Browser) :
  activeFilters (table (mount tableName b))
  = readStorageValue (activeFiltersKey tableName) [] (localStorage b) ∧
  hiddenColumns (table (mount tableName b))
  = readStorageValue (hiddenColumnsKey tableName) [] (localStorage b).
Proof. done. Qed.

Ltac expose_cells :=
  unfold clearActiveFilters, setActiveFilters, setHiddenColumns, onTable;
  cbn [table browser putActiveFilters putHiddenColumns
       activeFilters hiddenColumns].

Lemma handle_in_sync (tableName : string) (c : Call) (m m' : Machine) :
  in_sync tableName m → handle tableName c m = Ok m' → in_sync tableName m'.
Proof.
  intros [Hf Hh] Hm'. destruct c; simpl in Hm';
    try (injection Hm' as <-; by split).
  - injection Hm' as <-. split; expose_cells.
    + apply read_after_write.
    + rewrite read_other_key; [done | apply keys_disjoint].
  - injection Hm' as <-. split; expose_cells.
    + apply read_after_write.
    + rewrite read_other_key; [done | apply keys_disjoint].
  - injection Hm' as <-. split; expose_cells.
    + rewrite read_other_key; [done |]. intros Heq. by eapply keys_disjoint.
    + apply read_after_write.
  - unfold updateRecord in Hm'.
    destruct (updatedRecords _ _) as [l|]; [| done].
    injection Hm' as <-. by split.
Qed.

Lemma run_in_sync (tableName : string) (b : Browser) (cs : list Call) (m : Machine) :
  run tableName (mount tableName b) cs = Ok m → in_sync tableName m.
Proof.
  apply (run_invariant (in_sync tableName)).
  - intros m0 c m1. apply handle_in_sync.
  - done.
  - done.
Qed.

Lemma handle_unseen (tableName other : string) (c : Call) (m m' : Machine) :
  other ≠ tableName →
  unseen tableName (browser m) → handle other c m = Ok m' →
  unseen tableName (browser m').
Proof.
  intros Hne [Hf Hh] Hm'. destruct c; simpl in Hm';
    try (injection Hm' as <-; by split).
  - injection Hm' as <-. split; simpl.
    + rewrite lookup_insert_ne; [done |]. by intros ?%activeFiltersKey_inj.
    + rewrite lookup_insert_ne; [done | apply keys_disjoint].
  - injection Hm' as <-. split; simpl.
    + rewrite lookup_insert_ne; [done |]. by intros ?%activeFiltersKey_inj.
    + rewrite lookup_insert_ne; [done | apply keys_disjoint].
  - injection Hm' as <-. split; simpl.
    + rewrite lookup_insert_ne; [done |]. intros Heq. by eapply keys_disjoint.
    + rewrite lookup_insert_ne; [done |]. by intros ?%hiddenColumnsKey_inj.
  - unfold updateRecord in Hm'.
    destruct (updatedRecords _ _) as [l|]; [| done].
    injection Hm' as <-. by split.
Qed.

Lemma run_unseen (tableName other : string) (b : Browser) (cs : list Call) (m : Machine) :
  other ≠ tableName → unseen tableName b →
  run other (mount other b) cs = Ok m → unseen tableName (browser m).
Proof.
  intros Hne Hb.
  apply (run_invariant (λ m, unseen tableName (browser m))).
  - intros m0 c m1. by apply handle_unseen.
  - done.
  - done.
Qed.

(** C5.  The filters and the hidden columns are kept in the storage under
    ["inventree-table-filters-<tableName>"] and
    ["inventree-hidden-table-columns-<tableName>"]; a value written by
    [setActiveFilters] or [setHiddenColumns] is what a remount of the same
    table name reads, and so is, after any run of callbacks, whatever the two
    cells hold at the time; a mount with a table name the storage has
    nothing for reads the empty default, and the runs of tables with other
    names leave it so. *)
Theorem persisted_cells_round_trip
    (tableName : string) (m : Machine)
    (filters : list TableFilter) (columns : list string) :
  let written_filters := setActiveFilters tableName filters m in
  let written_columns := setHiddenColumns tableName columns m in
  localStorage (browser written_filters) !! ("inventree-table-filters-" +:+ tableName)
  = Some (serialize filters) ∧
  localStorage (browser written_columns) !! ("inventree-hidden-table-columns-" +:+ tableName)
  = Some (serialize columns) ∧
  activeFilters (table (mount tableName (unmount written_filters))) = filters ∧
  hiddenColumns (table (mount tableName (unmount written_columns))) = columns ∧
  (∀ b cs m', run tableName (mount tableName b) cs = Ok m' →
     activeFilters (table (mount tableName (unmount m'))) = activeFilters (table m') ∧
     hiddenColumns (table (mount tableName (unmount m'))) = hiddenColumns (table m')) ∧
  (∀ b, unseen tableName b →
     activeFilters (table (mount tableName b)) = [] ∧
     hiddenColumns (table (mount tableName b)) = []) ∧
  (∀ other b cs m', other ≠ tableName → unseen tableName b →
     run other (mount other b) cs = Ok m' → unseen tableName (browser m')).
Proof.
  intros written_filters written_columns. subst written_filters written_columns.
  split; [| split; [| split; [| split; [| split; [| split]]]]].
  - simpl. apply lookup_insert_eq.
  - simpl. apply lookup_insert_eq.
  - destruct (mount_persisted tableName (unmount (setActiveFilters tableName filters m)))
      as [-> _].
    apply read_after_write.
  - destruct (mount_persisted tableName (unmount (setHiddenColumns tableName columns m)))
      as [_ ->].
    apply read_after_write.
  - intros b cs m' [Hf Hh]%run_in_sync.
    destruct (mount_persisted tableName (unmount m')) as [-> ->]. by split.
  - intros b [Hf Hh].
    destruct (mount_persisted tableName b) as [-> ->].
    unfold readStorageValue. by rewrite Hf, Hh.
  - intros other b cs m'. apply run_unseen.
Qed.

Lemma persisted_cells_round_trip_witness :
  activeFilters (table (mount "parts" (unmount
    (rerender "parts" (onTable (setPage 3)
       (rerender "parts"
          (setActiveFilters "parts" [{| name := "active"; value := "true" |}]
             (mount "parts" fresh_browser))))))))
  = [{| name := "active"; value := "true" |}] ∧
  activeFilters (table (mount "stock" fresh_browser)) = [] ∧
  unseen "stock" (browser (rerender "parts"
    (setHiddenColumns "parts" ["IPN"] (mount "parts" fresh_browser)))).
Proof.
  destruct (persisted_cells_round_trip "stock" sample_machine [] [])
    as (_ & _ & _ & _ & _ & Hdefault & Hother).
  destruct (persisted_cells_round_trip "parts" sample_machine [] [])
    as (_ & _ & _ & _ & Hsync & _).
  split; [| split].
  - apply (Hsync fresh_browser
             [CallSetActiveFilters [{| name := "active"; value := "true" |}];
              CallSetPage 3]).
    reflexivity.
  - apply Hdefault. by split.
  - apply (Hother "parts" fresh_browser [CallSetHiddenColumns ["IPN"]]).
    + discriminate.
    + by split.
    + reflexivity.
Defined.

(** ** Selection *)

Lemma selectedIds_key (r : any) :
  is_object r →
  (get r "pk" ≫= λ pk, coalesce pk (get r "id")) = Ok (key_of r).
Proof.
  destruct r as [| | | | |addr props]; try done. intros _. simpl.
  unfold coalesce. destruct (props !! "pk") as [k|]; simpl; [| done].
  by destruct (nullish k).
Qed.

Lemma map_objects (f : any → result any) (g : any → any) (l : list any) :
  Forall (λ r, f r = Ok (g r)) l → JS.map f l = Ok (g <$> l).
Proof.
  induction 1 as [|r l Hr _ IH]; simpl; [done |].
  by rewrite Hr, IH.
Qed.

(** C7.  With an empty selection [selectedIds] is empty and
    [hasSelectedRecords] is false; for every selection of records
    [selectedIds] lists the key of each record in order, its [pk] or else its
    [id], and [hasSelectedRecords] is true exactly when there is a selected
    record. *)
Theorem selection_derived (st : TableState) (selection : list any) :
  Forall is_object selection →
  selectedIds (setSelectedRecords [] st) = Ok [] ∧
  hasSelectedRecords (setSelectedRecords [] st) = false ∧
  selectedIds (clearSelectedRecords st) = Ok [] ∧
  hasSelectedRecords (clearSelectedRecords st) = false ∧
  selectedIds (setSelectedRecords selection st) = Ok (key_of <$> selection) ∧
  (hasSelectedRecords (setSelectedRecords selection st) = true ↔ selection ≠ []).
Proof.
  intros Hsel. repeat split; try done.
  - unfold selectedIds. simpl. apply map_objects.
    eapply Forall_impl; [exact Hsel |]. intros r Hr. by apply selectedIds_key.
  - by destruct selection.
  - by destruct selection.
Qed.

Lemma selection_derived_witness :
  selectedIds (setSelectedRecords
                 [record 0 [("pk", Num 5); ("id", Num 8)]; record 1 [("id", Num 6)]]
                 (table sample_machine))
  = Ok [Num 5; Num 6].
Proof.
  destruct (selection_derived (table sample_machine)
              [record 0 [("pk", Num 5); ("id", Num 8)]; record 1 [("id", Num 6)]])
    as (_ & _ & _ & _ & Hids & _).
  - by repeat constructor.
  - exact Hids.
Defined.

(** ** Direct setters *)

(** C8.  [setRecordCount], [setPage], [setPageSize], [setIsLoading] and
    [setEditable] store their argument in their own cell and leave the
    browser and every other cell as they were; [setPageSize] leaves [page]
    alone. *)
Theorem direct_setters_frame (tableName : string) (m : Machine) :
  (∀ count, ∃ m', handle tableName (CallSetRecordCount count) m = Ok m' ∧
     recordCount (table m') = count ∧ sets_only FRecordCount m m') ∧
  (∀ p, ∃ m', handle tableName (CallSetPage p) m = Ok m' ∧
     page (table m') = p ∧ sets_only FPage m m') ∧
  (∀ n, ∃ m', handle tableName (CallSetPageSize n) m = Ok m' ∧
     pageSize (table m') = n ∧ sets_only FPageSize m m' ∧
     page (table m') = page (table m)) ∧
  (∀ v, ∃ m', handle tableName (CallSetIsLoading v) m = Ok m' ∧
     isLoading (table m') = v ∧ sets_only FIsLoading m m') ∧
  (∀ v, ∃ m', handle tableName (CallSetEditable v) m = Ok m' ∧
     editable (table m') = v ∧ sets_only FEditable m m').
Proof.
  repeat split; intros v; eexists; (split; [reflexivity |]);
    repeat split; intros f Hf; by destruct f.
Qed.

(** * Further properties of the hook *)

(** ** The scan of [updateRecord], records of any kind *)

Lemma updatedRecords_samePk (l : list any) (r : any) :
  updatedRecords l r =
    (index ← findIndex (samePk r) l;
     Ok (if bool_decide (index >= 0) then assign l index r else push l r)).
Proof. reflexivity. Qed.

Lemma samePk_Ok (record x : any) :
  nullish record = false → nullish x = false →
  samePk record x = Ok (strict_equals (pk_of x) (pk_of record)).
Proof. by destruct record, x. Qed.

Lemma samePk_nullish (record x : any) :
  nullish record = true ∨ nullish x = true → samePk record x = TypeError.
Proof. destruct record, x; simpl; intros [?|?]; done. Qed.

Lemma samePk_inv (record x : any) (b : bool) :
  samePk record x = Ok b →
  nullish record = false ∧ nullish x = false ∧
  b = strict_equals (pk_of x) (pk_of record).
Proof.
  destruct (nullish record) eqn:Hr.
  { rewrite samePk_nullish by auto. done. }
  destruct (nullish x) eqn:Hx.
  { rewrite samePk_nullish by auto. done. }
  rewrite samePk_Ok by done. intros [= <-]. done.
Qed.

(** What [findIndex] returns, by the shape of the array: the callback is
    false on everything before the first entry on which it is true or
    throws. *)
Lemma findIndex_from_cases {A : Type} (p : A → result bool) (l : list A) (i : Z) :
  match findIndex_from p l i with
  | Ok k =>
      (k = -1 ∧ Forall (λ y, p y = Ok false) l) ∨
      (∃ before x after, l = before ++ x :: after ∧
         k = i + Z.of_nat (length before) ∧ p x = Ok true ∧
         Forall (λ y, p y = Ok false) before)
  | TypeError =>
      ∃ before x after, l = before ++ x :: after ∧ p x = TypeError ∧
        Forall (λ y, p y = Ok false) before
  end.
Proof.
  revert i. induction l as [|x l IH]; intros i; simpl.
  - left. by split.
  - destruct (p x) as [[|]|] eqn:Hx; simpl.
    + right. exists [], x, l. repeat split; [simpl; lia | done | constructor].
    + specialize (IH (i + 1)).
      destruct (findIndex_from p l (i + 1)) as [k|].
      * destruct IH as [[-> Hall] | (before & y & after & -> & -> & Hy & Hbefore)].
        -- left. split; [done | by constructor].
        -- right. exists (x :: before), y, after.
           repeat split; [simpl; lia | done | by constructor].
      * destruct IH as (before & y & after & -> & Hy & Hbefore).
        exists (x :: before), y, after. repeat split; [done | by constructor].
    + exists [], x, l. repeat split; [done | constructor].
Qed.

Lemma findIndex_from_first {A : Type} (p : A → result bool)
    (before after : list A) (x : A) (i : Z) :
  Forall (λ y, p y = Ok false) before →
  findIndex_from p (before ++ x :: after) i =
    (b ← p x;
     if (b : bool) then Ok (i + Z.of_nat (length before))
     else findIndex_from p after (i + Z.of_nat (length before) + 1)).
Proof.
  intros Hbefore. revert i.
  induction Hbefore as [|y before Hy _ IH]; intros i; simpl.
  - by rewrite Z.add_0_r.
  - rewrite Hy. simpl. rewrite IH.
    replace (i + 1 + Z.of_nat (length before))
      with (i + Z.pos (Pos.of_succ_nat (length before))) by lia.
    done.
Qed.

Lemma findIndex_from_none {A : Type} (p : A → result bool) (l : list A) (i : Z) :
  Forall (λ y, p y = Ok false) l → findIndex_from p l i = Ok (-1).
Proof.
  intros Hl. revert i. induction Hl as [|y l Hy _ IH]; intros i; simpl; [done |].
  rewrite Hy. simpl. apply IH.
Qed.

Lemma assign_middle (before after : list any) (x r : any) :
  assign (before ++ x :: after) (0 + Z.of_nat (length before)) r
  = before ++ r :: after.
Proof.
  unfold assign. rewrite Z.add_0_l, Nat2Z.id.
  rewrite decide_True by (rewrite length_app; simpl; lia).
  rewrite insert_app_r_alt by done. by rewrite Nat.sub_diag.
Qed.

Lemma updatedRecords_first (before after : list any) (c r : any) :
  Forall (λ y, samePk r y = Ok false) before → samePk r c = Ok true →
  updatedRecords (before ++ c :: after) r = Ok (before ++ r :: after).
Proof.
  intros Hbefore Hc. rewrite updatedRecords_samePk. unfold findIndex.
  rewrite findIndex_from_first by done. rewrite Hc. simpl.
  rewrite bool_decide_eq_true_2 by lia. by rewrite assign_middle.
Qed.

Lemma updatedRecords_none (l : list any) (r : any) :
  Forall (λ y, samePk r y = Ok false) l →
  updatedRecords l r = Ok (l ++ [r]).
Proof.
  intros Hl. rewrite updatedRecords_samePk. unfold findIndex.
  by rewrite findIndex_from_none.
Qed.

Lemma updatedRecords_cases (l : list any) (r : any) :
  match updatedRecords l r with
  | Ok l' =>
      (l' = l ++ [r] ∧ Forall (λ y, samePk r y = Ok false) l) ∨
      (∃ before c after, l = before ++ c :: after ∧
         l' = before ++ r :: after ∧ samePk r c = Ok true ∧
         Forall (λ y, samePk r y = Ok false) before)
  | TypeError =>
      ∃ before x after, l = before ++ x :: after ∧ samePk r x = TypeError ∧
        Forall (λ y, samePk r y = Ok false) before
  end.
Proof.
  pose proof (findIndex_from_cases (samePk r) l 0) as Hcases.
  rewrite updatedRecords_samePk. unfold findIndex.
  destruct (findIndex_from (samePk r) l 0) as [k|]; simpl; [| done].
  destruct Hcases as [[-> Hall] | (before & c & after & -> & -> & Hc & Hbefore)].
  - by left.
  - right. exists before, c, after.
    rewrite bool_decide_eq_true_2 by lia. by rewrite assign_middle.
Qed.

Lemma updatedRecords_throw (before after : list any) (x r : any) :
  Forall (λ y, samePk r y = Ok false) before → samePk r x = TypeError →
  updatedRecords (before ++ x :: after) r = TypeError.
Proof.
  intros Hbefore Hx. rewrite updatedRecords_samePk. unfold findIndex.
  rewrite findIndex_from_first by done. by rewrite Hx.
Qed.

Lemma updateRecord_Ok (r : any) (st st' : TableState) :
  updateRecord r st = Ok st' ↔
  ∃ l', updatedRecords (records st) r = Ok l' ∧ st' = setRecords l' st.
Proof.
  unfold updateRecord. destruct (updatedRecords (records st) r) as [l'|]; simpl.
  - split; [intros [= <-]; by exists l' | intros (? & [= <-] & ->); done].
  - split; [done | by intros (? & ? & _)].
Qed.

Lemma updateRecord_TypeError (r : any) (st : TableState) :
  updateRecord r st = TypeError ↔ updatedRecords (records st) r = TypeError.
Proof.
  unfold updateRecord. by destruct (updatedRecords (records st) r) as [l'|].
Qed.

Lemma misses_samePk (r : any) (l : list any) :
  nullish r = false →
  Forall (λ y, nullish y = false ∧ strict_equals (pk_of y) (pk_of r) = false) l ↔
  Forall (λ y, samePk r y = Ok false) l.
Proof.
  intros Hr. apply Forall_iff. intros y. split.
  - intros [Hy Hne]. by rewrite samePk_Ok, Hne.
  - intros (_ & Hy & Hne)%samePk_inv. done.
Qed.

(** ** [updateRecord] on arbitrary caches *)

(** X1.  A successful [updateRecord(record)] either overwrites one slot of
    the cache or appends one entry: nothing else moves, the record is in the
    cache afterwards, and the cache keeps its length or grows by one. *)
Theorem updateRecord_replaces_or_appends (r : any) (st st' : TableState) :
  updateRecord r st = Ok st' →
  ((∃ before c after, records st = before ++ c :: after ∧
                      records st' = before ++ r :: after) ∨
   records st' = records st ++ [r]) ∧
  r ∈ records st' ∧
  (length (records st) ≤ length (records st') ≤ S (length (records st)))%nat.
Proof.
  intros (l' & Hl' & ->)%updateRecord_Ok. simpl.
  pose proof (updatedRecords_cases (records st) r) as Hcases.
  rewrite Hl' in Hcases.
  destruct Hcases as [[-> _] | (before & c & after & Hl & -> & _ & _)].
  - split; [by right |]. split; [set_solver |].
    rewrite length_app. simpl. lia.
  - split; [left; by exists before, c, after |]. split; [set_solver |].
    rewrite Hl, !length_app. simpl. lia.
Qed.

Lemma updateRecord_replaces_or_appends_witness :
  record 3 [("pk", Num 3); ("v", Str "d")]
  ∈ sample_records ++ [record 3 [("pk", Num 3); ("v", Str "d")]].
Proof.
  apply (updateRecord_replaces_or_appends
           (record 3 [("pk", Num 3); ("v", Str "d")])
           (table sample_machine)
           (setRecords (sample_records ++ [record 3 [("pk", Num 3); ("v", Str "d")]])
              (table sample_machine))).
  reflexivity.
Defined.

(** X2.  [updateRecord] is idempotent on a record whose [pk] is [===] to
    itself, which is every [pk] but NaN: once a call for such a record has
    succeeded, the same call made through the callback of the next render
    succeeds and changes nothing. *)
Theorem updateRecord_idempotent (r : any) (st st' : TableState) :
  nullish r = false →
  strict_equals (pk_of r) (pk_of r) = true →
  updateRecord r st = Ok st' →
  updateRecord r st' = Ok st'.
Proof.
  intros Hr Hself (l' & Hl' & ->)%updateRecord_Ok.
  apply updateRecord_Ok. exists l'. split; [| done]. simpl.
  assert (samePk r r = Ok true) as Hrr.
  { rewrite samePk_Ok by done. by rewrite Hself. }
  pose proof (updatedRecords_cases (records st) r) as Hcases.
  rewrite Hl' in Hcases.
  destruct Hcases as [[-> Hall] | (before & c & after & Hl & -> & _ & Hbefore)].
  - rewrite (updatedRecords_first (records st) [] r r) by done. done.
  - by apply updatedRecords_first.
Qed.

Lemma updateRecord_idempotent_witness :
  updateRecord (record 2 [("pk", Num 1); ("v", Str "c")])
    (setRecords
       [record 2 [("pk", Num 1); ("v", Str "c")]; record 1 [("pk", Num 2); ("v", Str "b")]]
       (table sample_machine))
  = Ok (setRecords
          [record 2 [("pk", Num 1); ("v", Str "c")]; record 1 [("pk", Num 2); ("v", Str "b")]]
          (table sample_machine)).
Proof.
  apply (updateRecord_idempotent _ (table sample_machine)); reflexivity.
Defined.

(** X3.  [updateRecord] stops at the first entry with the record's [pk]:
    that entry is replaced and what comes after it is not looked at, so later
    entries with the same [pk], and even [null] entries, stay as they are. *)
Theorem updateRecord_first_match_only
    (st : TableState) (before after : list any) (c r : any) :
  records st = before ++ c :: after →
  nullish r = false → nullish c = false →
  Forall (λ y, nullish y = false ∧ strict_equals (pk_of y) (pk_of r) = false) before →
  strict_equals (pk_of c) (pk_of r) = true →
  updateRecord r st = Ok (setRecords (before ++ r :: after) st).
Proof.
  intros Hl Hr Hc Hbefore Hmatch. apply updateRecord_Ok.
  exists (before ++ r :: after). split; [| done]. rewrite Hl.
  apply updatedRecords_first.
  - by apply misses_samePk.
  - by rewrite samePk_Ok, Hmatch.
Qed.

Lemma updateRecord_first_match_only_witness :
  updateRecord (record 9 [("pk", Num 2); ("v", Str "new")])
    (setRecords
       [record 0 [("pk", Num 1)]; record 1 [("pk", Num 2)]; record 2 [("pk", Num 2)]; Null]
       (table sample_machine))
  = Ok (setRecords
          [record 0 [("pk", Num 1)]; record 9 [("pk", Num 2); ("v", Str "new")];
           record 2 [("pk", Num 2)]; Null]
          (setRecords
             [record 0 [("pk", Num 1)]; record 1 [("pk", Num 2)]; record 2 [("pk", Num 2)]; Null]
             (table sample_machine))).
Proof.
  apply (updateRecord_first_match_only _ [record 0 [("pk", Num 1)]]
           [record 2 [("pk", Num 2)]; Null] (record 1 [("pk", Num 2)])).
  - reflexivity.
  - reflexivity.
  - reflexivity.
  - by repeat constructor.
  - reflexivity.
Defined.

(** X4.  When [updateRecord] throws.  For a [null] or [undefined] record it
    throws unless the cache is empty (the record is then appended as it is);
    for any other record it throws exactly when the scan meets a [null] or
    [undefined] entry before it has found an entry with the record's [pk]. *)
Theorem updateRecord_throws_iff (r : any) (st : TableState) :
  (nullish r = true →
   (updateRecord r st = TypeError ↔ records st ≠ []) ∧
   (records st = [] → updateRecord r st = Ok (setRecords [r] st))) ∧
  (nullish r = false →
   (updateRecord r st = TypeError ↔
    ∃ before x after, records st = before ++ x :: after ∧ nullish x = true ∧
      Forall (λ y, nullish y = false ∧ strict_equals (pk_of y) (pk_of r) = false)
        before)).
Proof.
  split; intros Hr.
  - split.
    + rewrite updateRecord_TypeError.
      destruct (records st) as [|x l]; [done |]. split; [done | intros _].
      apply (updatedRecords_throw [] l x r); [constructor |].
      apply samePk_nullish. by left.
    + intros Hl. unfold updateRecord. by rewrite Hl.
  - rewrite updateRecord_TypeError. split.
    + intros Hthrow.
      pose proof (updatedRecords_cases (records st) r) as Hcases.
      rewrite Hthrow in Hcases.
      destruct Hcases as (before & x & after & Hl & Hx & Hbefore).
      exists before, x, after. split; [done |]. split.
      * destruct (nullish x) eqn:Hnx; [done |].
        by rewrite samePk_Ok in Hx.
      * by apply misses_samePk.
    + intros (before & x & after & -> & Hx & Hbefore).
      apply updatedRecords_throw.
      * by apply misses_samePk.
      * apply samePk_nullish. by right.
Qed.

Lemma updateRecord_throws_iff_witness :
  updateRecord Null (setRecords [] (table sample_machine))
  = Ok (setRecords [Null] (setRecords [] (table sample_machine))) ∧
  updateRecord (record 9 [("pk", Num 2)])
    (setRecords [record 0 [("pk", Num 1)]; Undefined; record 1 [("pk", Num 2)]]
       (table sample_machine))
  = TypeError.
Proof.
  split.
  - destruct (updateRecord_throws_iff Null (setRecords [] (table sample_machine)))
      as [Hnull _].
    destruct (Hnull eq_refl) as [_ Hempty]. by apply Hempty.
  - destruct (updateRecord_throws_iff (record 9 [("pk", Num 2)])
                (setRecords [record 0 [("pk", Num 1)]; Undefined; record 1 [("pk", Num 2)]]
                   (table sample_machine))) as [_ Hrec].
    apply (Hrec eq_refl).
    exists [record 0 [("pk", Num 1)]], Undefined, [record 1 [("pk", Num 2)]].
    split; [reflexivity |]. split; [reflexivity |]. by repeat constructor.
Defined.

(** ** What the callbacks leave alone *)

Lemma agree_refl (f : Field) (st : TableState) : agree f st st.
Proof. by destruct f. Qed.

Lemma agree_trans (f : Field) (st1 st2 st3 : TableState) :
  agree f st1 st2 → agree f st2 st3 → agree f st1 st3.
Proof. destruct f; simpl; congruence. Qed.

Lemma updateRecord_Ok_table (tableName : string) (r : any) (m m' : Machine) :
  handle tableName (CallUpdateRecord r) m = Ok m' →
  ∃ l', table m' = setRecords l' (table m) ∧ browser m' = browser m.
Proof.
  simpl. destruct (updateRecord r (table m)) as [st|] eqn:Hst; [| done].
  apply updateRecord_Ok in Hst as (l' & _ & ->).
  intros [= <-]. by exists l'.
Qed.

Lemma handle_cell_frame (tableName : string) (c : Call) (m m' : Machine) (f : Field) :
  cell_of_call c ≠ f → handle tableName c m = Ok m' →
  agree f (table m) (table m').
Proof.
  intros Hf Hm'. destruct c; simpl in Hf, Hm';
    try (injection Hm' as <-; by destruct f).
  all: apply updateRecord_Ok_table in Hm' as (l' & -> & _); by destruct f.
Qed.

Lemma handle_storage_frame (tableName : string) (c : Call) (m m' : Machine) :
  writes_storage c = false → handle tableName c m = Ok m' →
  localStorage (browser m') = localStorage (browser m).
Proof.
  intros Hc Hm'. destruct c; simpl in Hc, Hm';
    try done; try (by injection Hm' as <-).
  by apply updateRecord_Ok_table in Hm' as (l' & _ & ->).
Qed.

(** X5.  Along any run of callbacks and renders a cell changes only through
    its own callbacks: a run without a call of the callbacks of a cell ends
    with that cell as it was.  So only [refreshTable] changes the token, and
    neither a refresh nor a new page of records clears the selection, the
    expansion or the search term. *)
Theorem run_cell_frame
    (tableName : string) (f : Field) (cs : list Call) (m m' : Machine) :
  Forall (λ c, cell_of_call c ≠ f) cs →
  run tableName m cs = Ok m' →
  agree f (table m) (table m').
Proof.
  intros Hcs. revert m.
  induction Hcs as [|c cs Hc _ IH]; intros m Hrun; simpl in Hrun.
  - injection Hrun as <-. apply agree_refl.
  - unfold step in Hrun.
    destruct (handle tableName c m) as [m1|] eqn:Hm1; [| done].
    simpl in Hrun. eapply agree_trans.
    + by eapply handle_cell_frame.
    + by apply IH in Hrun.
Qed.

Lemma run_cell_frame_witness :
  agree FSelectedRecords
    (table (onTable (setSelectedRecords sample_records) sample_machine))
    (table (rerender "parts" (onTable (setRecords [])
       (rerender "parts" (refreshTable "parts"
          (onTable (setSelectedRecords sample_records) sample_machine)))))).
Proof.
  apply (run_cell_frame "parts" FSelectedRecords
           [CallRefreshTable; CallSetRecords []]).
  - repeat constructor; discriminate.
  - reflexivity.
Defined.

(** X6.  Only [setActiveFilters], [clearActiveFilters] and
    [setHiddenColumns] write the browser's storage: a run without them leaves
    the storage as it was, so records, selection, pagination and the token
    are never persisted. *)
Theorem run_storage_frame
    (tableName : string) (cs : list Call) (m m' : Machine) :
  Forall (λ c, writes_storage c = false) cs →
  run tableName m cs = Ok m' →
  localStorage (browser m') = localStorage (browser m).
Proof.
  intros Hcs. revert m.
  induction Hcs as [|c cs Hc _ IH]; intros m Hrun; simpl in Hrun.
  - by injection Hrun as <-.
  - unfold step in Hrun.
    destruct (handle tableName c m) as [m1|] eqn:Hm1; [| done].
    simpl in Hrun. apply IH in Hrun. rewrite Hrun. simpl.
    by eapply handle_storage_frame.
Qed.

Lemma run_storage_frame_witness :
  localStorage (browser
    (rerender "parts" (onTable (setPage 4)
       (rerender "parts" (onTable (setRecords sample_records)
          (rerender "parts" (refreshTable "parts" sample_machine)))))))
  = localStorage (browser sample_machine).
Proof.
  apply (run_storage_frame "parts"
           [CallRefreshTable; CallSetRecords sample_records; CallSetPage 4]).
  - by repeat constructor.
  - reflexivity.
Defined.

(** ** Writes of the persisted cells *)

Lemma writeStorageValue_twice `{Serializable A} (key : string) (v1 v2 : A) (b : Browser) :
  writeStorageValue key v2 (writeStorageValue key v1 b) = writeStorageValue key v2 b.
Proof.
  unfold writeStorageValue. simpl. by rewrite insert_insert_eq.
Qed.

Lemma writeStorageValue_comm `{Serializable A} `{Serializable B}
    (key1 key2 : string) (v1 : A) (v2 : B) (b : Browser) :
  key1 ≠ key2 →
  writeStorageValue key1 v1 (writeStorageValue key2 v2 b)
  = writeStorageValue key2 v2 (writeStorageValue key1 v1 b).
Proof.
  intros Hne. unfold writeStorageValue. simpl. f_equal.
  by apply insert_insert_ne.
Qed.

(** X7.  Writes of the persisted cells compose as replacements: of two
    [setActiveFilters] calls, or two [setHiddenColumns] calls, the later one
    alone counts, and a write of the filters and a write of the hidden
    columns can be made in either order. *)
Theorem persisted_writes_compose
    (tableName : string) (m : Machine)
    (filters1 filters2 : list TableFilter) (columns1 columns2 : list string) :
  setActiveFilters tableName filters2 (setActiveFilters tableName filters1 m)
  = setActiveFilters tableName filters2 m ∧
  setHiddenColumns tableName columns2 (setHiddenColumns tableName columns1 m)
  = setHiddenColumns tableName columns2 m ∧
  setActiveFilters tableName filters1 (setHiddenColumns tableName columns1 m)
  = setHiddenColumns tableName columns1 (setActiveFilters tableName filters1 m).
Proof.
  unfold setActiveFilters, setHiddenColumns.
  cbn [table browser]. repeat split.
  - f_equal. apply writeStorageValue_twice.
  - f_equal. apply writeStorageValue_twice.
  - f_equal. apply writeStorageValue_comm, keys_disjoint.
Qed.

(** X8.  [clearActiveFilters] empties the filters whatever they were, in the
    cell and in the storage, so that a remount reads no filter; the hidden
    columns, in the cell and as a remount reads them, are those from
    before. *)
Theorem clearActiveFilters_clears
    (tableName : string) (b : Browser) (cs : list Call) (m : Machine) :
  run tableName (mount tableName b) cs = Ok m →
  let m' := clearActiveFilters tableName m in
  activeFilters (table m') = [] ∧
  activeFilters (table (mount tableName (unmount m'))) = [] ∧
  hiddenColumns (table m') = hiddenColumns (table m) ∧
  hiddenColumns (table (mount tableName (unmount m'))) = hiddenColumns (table m).
Proof.
  intros [_ Hh]%run_in_sync m'. subst m'. split; [done |].
  destruct (mount_persisted tableName (unmount (clearActiveFilters tableName m)))
    as [-> ->].
  split; [apply read_after_write |]. split; [done |].
  unfold clearActiveFilters, setActiveFilters, unmount. cbn [browser].
  rewrite read_other_key; [done | apply keys_disjoint].
Qed.

Lemma clearActiveFilters_clears_witness :
  activeFilters (table (mount "parts" (unmount (clearActiveFilters "parts"
    (rerender "parts"
       (setActiveFilters "parts" [{| name := "active"; value := "true" |}]
          (mount "parts" fresh_browser))))))) = [].
Proof.
  destruct (clearActiveFilters_clears "parts" fresh_browser
              [CallSetActiveFilters [{| name := "active"; value := "true" |}]]
              (rerender "parts"
                 (setActiveFilters "parts" [{| name := "active"; value := "true" |}]
                    (mount "parts" fresh_browser))))
    as (_ & Hremount & _).
  - reflexivity.
  - exact Hremount.
Defined.

(** ** Selection and the allocation form *)

Lemma selectedId_cases (r : any) :
  (get r "pk" ≫= λ pk, coalesce pk (get r "id"))
  = if nullish r then TypeError else Ok (key_of r).
Proof.
  destruct r as [| | | | |addr props]; try done. simpl.
  unfold coalesce. destruct (props !! "pk") as [k|]; simpl; [| done].
  by destruct (nullish k).
Qed.

Lemma selectedIds_cases (st : TableState) :
  selectedIds st
  = if existsb nullish (selectedRecords st) then TypeError
    else Ok (key_of <$> selectedRecords st).
Proof.
  unfold selectedIds. induction (selectedRecords st) as [|r l IH]; simpl; [done |].
  rewrite selectedId_cases. destruct (nullish r); simpl; [done |].
  rewrite IH. by destruct (existsb nullish l).
Qed.

(** X9.  [selectedIds] throws exactly when a selected entry is [null] or
    [undefined]; otherwise it has one key per selected entry, in order, the
    [pk] of the entry or else its [id], which is [undefined] for an entry
    that has neither. *)
Theorem selectedIds_throws_iff (st : TableState) :
  (selectedIds st = TypeError ↔
   ∃ r, r ∈ selectedRecords st ∧ nullish r = true) ∧
  (∀ ids, selectedIds st = Ok ids →
     ids = key_of <$> selectedRecords st ∧
     length ids = length (selectedRecords st)).
Proof.
  rewrite selectedIds_cases.
  destruct (existsb nullish (selectedRecords st)) eqn:Hex.
  - split; [| done]. split; [intros _ | done].
    apply existsb_exists in Hex as (r & Hin & Hr).
    exists r. split; [by apply list_elem_of_In | done].
  - split.
    + split; [done |]. intros (r & Hin & Hr).
      assert (existsb nullish (selectedRecords st) = true) as Htrue.
      { apply existsb_exists. exists r. split; [by apply list_elem_of_In | done]. }
      congruence.
    + intros ids [= <-]. split; [done | by rewrite length_fmap].
Qed.

Lemma selectedIds_throws_iff_witness :
  selectedIds (setSelectedRecords [record 0 [("pk", Num 5)]; Null] (table sample_machine))
  = TypeError.
Proof.
  apply (selectedIds_throws_iff
           (setSelectedRecords [record 0 [("pk", Num 5)]; Null] (table sample_machine))).
  exists Null. split; [| reflexivity].
  apply list_elem_of_further, list_elem_of_here.
Defined.

(** X10.  After the stock allocation form has succeeded the table has a
    newly generated token and an empty selection, so [hasSelectedRecords] is
    false and [selectedIds] is empty; every other cell and the storage are as
    before, and the outcome does not depend on the order of the two calls. *)
Theorem allocateStock_onFormSuccess_effect (m : Machine) :
  let m' := allocateStock_onFormSuccess m in
  tableKey (table m')
  = "salesorderlineitem-" +:+ randomIds (browser m) (randomCalls (browser m)) ∧
  selectedRecords (table m') = [] ∧
  hasSelectedRecords (table m') = false ∧
  selectedIds (table m') = Ok [] ∧
  (∀ f, f ≠ FTableKey → f ≠ FSelectedRecords → agree f (table m) (table m')) ∧
  localStorage (browser m') = localStorage (browser m) ∧
  m' = refreshTable "sales-order-line-item" (onTable clearSelectedRecords m).
Proof.
  simpl. repeat split. intros f Hkey Hsel. by destruct f.
Qed.

(** ** Several [updateRecord] calls of one render *)



